(** * react-simple-slots: the slot registry, its writer and its resolver

    A shallow embedding of [src/SlotContext.tsx], [src/Slot.tsx] and
    [src/TemplateSlot.tsx].

    - JavaScript values carry an identity where [===] compares by reference
      (elements, functions, the [slotValues] record) and are compared by
      value otherwise (undefined, null, booleans, numbers, strings).
      Numbers are binary64 floats: [===] is the IEEE equality, under which
      NaN differs from itself, and [Object.is] is the same-value test.
    - The [slotValues] record is a finite map of its own properties above
      [Object.prototype]: a read of a name that is not an own property
      finds the inherited member, and [in] holds for it.
    - A function value is an identity together with what its call returns;
      the built-in methods of [Object.prototype] and the members of function
      objects are values whose call and use the model does not interpret.
    - React is modelled as far as the three files rely on it: a state cell
      with a queue of functional updaters, [useContext], [useMemo] and
      [useLayoutEffect] with dependency lists and cleanup. *)

From Stdlib Require Import Floats.PrimFloat Floats.FloatOps Floats.SpecFloat.
From stdpp Require Import base option strings gmap fin_maps list.

Open Scope string_scope.

(** ** Values *)

Definition ref := positive.

(** [ReactNode]: what a component may render. *)
#[warnings="-register-all"] Inductive ReactNode :=
| RUndefined
| RNull
| RBool (b : bool)
| RNumber (x : float)
| RText (s : string)
| RElement (id : ref) (type : string) (kids : list ReactNode).

(** The identity of a function object: a function the caller created, the
    method of [Object.prototype] under a key, or the arrow function that
    [Slot] creates around a render prop (a new object at each creation). *)
Inductive FunctionId :=
| Supplied (id : positive)
| Builtin (key : string)
| Wrapper (wrapped : FunctionId) (created : ref).

Coercion Supplied : positive >-> FunctionId.

(** [SlotRenderPropFunction = (defaultChildren: ReactNode) => ReactNode]:
    a function object is an identity together with what a call returns. *)
Record SlotRenderPropFunction := mkFunction {
  fn_id : FunctionId;
  fn_call : ReactNode -> ReactNode
}.

(** [SlotChildren = ReactNode | SlotRenderPropFunction]. *)
Inductive SlotChildren :=
| Node (c : ReactNode)
| RenderProp (f : SlotRenderPropFunction).

(** The same function object. *)
Fixpoint FunctionId_eqb (a b : FunctionId) : bool :=
  match a, b with
  | Supplied i, Supplied j => Pos.eqb i j
  | Builtin k, Builtin k' => String.eqb k k'
  | Wrapper f i, Wrapper g j => FunctionId_eqb f g && Pos.eqb i j
  | _, _ => false
  end.

(** [a === b] on nodes. *)
Definition node_strict_eq (a b : ReactNode) : bool :=
  match a, b with
  | RUndefined, RUndefined => true
  | RNull, RNull => true
  | RBool x, RBool y => Bool.eqb x y
  | RNumber x, RNumber y => PrimFloat.eqb x y
  | RText x, RText y => String.eqb x y
  | RElement i _ _, RElement j _ _ => Pos.eqb i j
  | _, _ => false
  end.

(** [a === b] on slot values. *)
Definition children_strict_eq (a b : SlotChildren) : bool :=
  match a, b with
  | Node x, Node y => node_strict_eq x y
  | RenderProp f, RenderProp g => FunctionId_eqb (fn_id f) (fn_id g)
  | _, _ => false
  end.

(** The same-value test on numbers: NaN is NaN, and +0 is not -0. *)
Definition same_value (x y : float) : bool :=
  match Prim2SF x, Prim2SF y with
  | S754_nan, S754_nan => true
  | S754_zero a, S754_zero b => Bool.eqb a b
  | S754_infinity a, S754_infinity b => Bool.eqb a b
  | S754_finite s m e, S754_finite s' m' e' => Bool.eqb s s' && Pos.eqb m m' && Z.eqb e e'
  | _, _ => false
  end.

(** [Object.is], which React uses on dependency lists; it differs from [===]
    on numbers only. *)
Definition object_is (a b : SlotChildren) : bool :=
  match a, b with
  | Node (RNumber x), Node (RNumber y) => same_value x y
  | _, _ => children_strict_eq a b
  end.

(** The type guard [typeof value === "function"] (the same helper in
    Slot.tsx and TemplateSlot.tsx): on the left the value as a function, on
    the right the value as a node. *)
Definition isRenderProp (value : SlotChildren) : SlotRenderPropFunction + ReactNode :=
  match value with
  | RenderProp f => inl f
  | Node c => inr c
  end.

(** JavaScript truthiness of a node. *)
Definition truthy (v : ReactNode) : bool :=
  match v with
  | RUndefined | RNull => false
  | RBool b => b
  | RNumber x => negb (is_nan x || is_zero x)
  | RText s => negb (String.eqb s "")
  | RElement _ _ _ => true
  end.

(** ** The [slotValues] record *)

(** [Record<string, SlotChildren>]: an object with an identity and its own
    properties. *)
Record SlotRecord := mkRecord {
  obj_id : ref;
  own : gmap string SlotChildren
}.

(** The keys of the methods every object inherits from [Object.prototype]. *)
Definition Object_prototype_methods : list string :=
  [ "constructor"; "__defineGetter__"; "__defineSetter__"; "hasOwnProperty";
    "__lookupGetter__"; "__lookupSetter__"; "isPrototypeOf"; "propertyIsEnumerable";
    "toString"; "valueOf"; "toLocaleString" ].

Definition is_method (key : string) : bool :=
  existsb (String.eqb key) Object_prototype_methods.

(** The keys found on [Object.prototype]: its methods and the accessor
    [__proto__], which reads as the prototype object itself. *)
Definition inherited (key : string) : bool :=
  is_method key || String.eqb key "__proto__".

(** What a property read gives: a slot value, the member of
    [Object.prototype] under a key, or the property of a function object
    under a key. *)
Inductive Property :=
| Value (v : SlotChildren)
| Inherited (key : string)
| OfFunction (key : string).

Coercion Value : SlotChildren >-> Property.

(** [a === b]: an inherited method is the function whose identity is the
    built-in one under that key; the prototype object and the properties of
    function objects are no slot values. *)
Definition strict_eq (a b : Property) : bool :=
  match a, b with
  | Value x, Value y => children_strict_eq x y
  | Inherited k, Inherited k' => String.eqb k k'
  | Inherited k, Value (RenderProp f) | Value (RenderProp f), Inherited k =>
      is_method k && FunctionId_eqb (fn_id f) (Builtin k)
  | _, _ => false
  end.

(** [o[name]]: the own property, else the inherited member, else undefined. *)
Definition prop_get (o : SlotRecord) (name : string) : Property :=
  match own o !! name with
  | Some v => Value v
  | None => if inherited name then Inherited name else Value (Node RUndefined)
  end.

(** [Object.hasOwn(o, name)]: the record has an entry for the name. *)
Definition prop_in (name : string) (o : SlotRecord) : bool :=
  bool_decide (is_Some (own o !! name)).

(** [name in o]: an own property or a member of [Object.prototype]. *)
Definition in_operator (name : string) (o : SlotRecord) : bool :=
  prop_in name o || inherited name.

(** [a === b] on records: the same instance. *)
Definition same_instance (a b : SlotRecord) : bool := Pos.eqb (obj_id a) (obj_id b).

(** ** Allocation of identities *)

(** A computation that may create objects threads the next unused identity. *)
Definition Alloc (A : Type) : Type := ref -> A * ref.

Definition Updater : Type := SlotRecord -> Alloc SlotRecord.

(** ** SlotContext.tsx: the two updaters *)

(** The function passed to [setSlotValues] by [setSlotValue(name, children)]
    (lines 51-59). *)
Definition setSlotValue_updater (name : string) (children : SlotChildren) : Updater :=
  fun prev next =>
    if strict_eq (prop_get prev name) children then (prev, next)
    else (mkRecord next (<[name := children]> (own prev)), Pos.succ next).

(** The function passed to [setSlotValues] by [removeSlotValue(name)]
    (lines 64-70). *)
Definition removeSlotValue_updater (name : string) : Updater :=
  fun prev next =>
    if negb (in_operator name prev) then (prev, next)
    else (mkRecord next (delete name (own prev)), Pos.succ next).

(** ** Errors *)

Inductive JsError :=
| Error (message : string)
| TypeError (message : string).

Definition Result (A : Type) : Type := JsError + A.

Definition ok {A} (a : A) : Result A := inr a.
Definition throw {A} (e : JsError) : Result A := inl e.

(** Sequencing stops at the first error:
    [x ← r; k] runs [k] on the value of [r]. *)
#[global] Instance Result_bind : MBind Result :=
  fun A B k r =>
    match r with
    | inl e => inl e
    | inr a => k a
    end.

(** ** SlotContext.tsx: the provider *)

(** A function held by the context object: called with a name and (for the
    setter) a value, it returns a value and dispatches state updates. *)
Definition ContextFunction : Type := string -> SlotChildren -> ReactNode * list Updater.

(** What reading a property of the context object can give. *)
Inductive Member :=
| MUndefined
| MRecord (o : SlotRecord)
| MFunction (f : ContextFunction).

(** The context object is an object literal: its properties in order. *)
Definition SlotContextType : Type := list (string * Member).

(** [ctx.key] for a key that is no member of [Object.prototype], as are the
    keys the three files read: the property of the object literal, or
    undefined when it has none under that key. *)
Fixpoint member (ctx : SlotContextType) (key : string) : Member :=
  match ctx with
  | [] => MUndefined
  | (k, v) :: rest => if String.eqb k key then v else member rest key
  end.

(** [f(name, children)]. *)
Definition call (what : string) (f : Member) (name : string) (children : SlotChildren)
  : Result (ReactNode * list Updater) :=
  match f with
  | MFunction g => ok (g name children)
  | _ => throw (TypeError (what ++ " is not a function"))
  end.

(** [o[name]] for a member [o]. *)
Definition index (o : Member) (name : string) : Result Property :=
  match o with
  | MRecord r => ok (prop_get r name)
  | MFunction _ => ok (OfFunction name)
  | MUndefined =>
      throw (TypeError ("Cannot read properties of undefined (reading '" ++ name ++ "')"))
  end.

Definition member_truthy (m : Member) : bool :=
  match m with
  | MUndefined => false
  | _ => true
  end.

(** One mounted [SlotProvider]: its [useState] cell, the updaters queued by
    [setSlotValues] since the last render, and the next unused identity. *)
Record Scope := mkScope {
  next_id : ref;
  slotValues : SlotRecord;
  queue : list Updater
}.

(** [setSlotValue] (lines 50-60). *)
Definition setSlotValue : ContextFunction :=
  fun name children => (RUndefined, [setSlotValue_updater name children]).

(** [removeSlotValue] (lines 63-71). *)
Definition removeSlotValue : ContextFunction :=
  fun name _ => (RUndefined, [removeSlotValue_updater name]).

(** The [value] of [SlotContext.Provider] (lines 75-79). *)
Definition provider_value (s : Scope) : SlotContextType :=
  [ ("slotValues", MRecord (slotValues s));
    ("setSlotValue", MFunction setSlotValue);
    ("removeSlotValue", MFunction removeSlotValue) ].

(** First render: [useState({})]. *)
Definition SlotProvider_mount (next : ref) : Scope :=
  mkScope (Pos.succ next) (mkRecord next ∅) [].

(** React applies the queued updaters, oldest first, to the state. *)
Fixpoint run_queue (q : list Updater) (state : SlotRecord) (next : ref) : SlotRecord * ref :=
  match q with
  | [] => (state, next)
  | u :: rest => let '(state', next') := u state next in run_queue rest state' next'
  end.

(** A render of the provider: the state cell takes the result of the queue. *)
Definition SlotProvider_render (s : Scope) : Scope :=
  let '(state, next) := run_queue (queue s) (slotValues s) (next_id s) in
  mkScope next state [].

(** [setSlotValues(u)] for each dispatched updater. *)
Definition dispatch (us : list Updater) (s : Scope) : Scope :=
  mkScope (next_id s) (slotValues s) (queue s ++ us).

(** [useContext(SlotContext)]: the value of the enclosing provider, or the
    default [undefined]. *)
Definition useContext (enclosing : option Scope) : option SlotContextType :=
  provider_value <$> enclosing.

(** [useSlotContext] (lines 92-98). *)
Definition useSlotContext (enclosing : option Scope) : Result SlotContextType :=
  match useContext enclosing with
  | None => throw (Error "useSlotContext must be used within a SlotProvider")
  | Some context => ok context
  end.

(** A direct use of a capability obtained from [useSlotContext()] inside the
    scope: [context[key](name, children)]. *)
Definition invoke (key : string) (name : string) (children : SlotChildren) (s : Scope)
  : Result Scope :=
  context ← useSlotContext (Some s);
  '(_, updates) ← call key (member context key) name children;
  ok (dispatch updates s).

(** [act(() => context.setSlotValue(name, children))]: the call, then the
    render React schedules for the update. *)
Definition act_setSlotValue (name : string) (children : SlotChildren) (s : Scope)
  : Result Scope :=
  s' ← invoke "setSlotValue" name children s;
  ok (SlotProvider_render s').

(** [act(() => context.removeSlotValue(name))]. *)
Definition act_removeSlotValue (name : string) (s : Scope) : Result Scope :=
  s' ← invoke "removeSlotValue" name (Node RUndefined) s;
  ok (SlotProvider_render s').

(** ** TemplateSlot.tsx *)

(** A fragment [<>...</>] and the children it renders in place; or what
    lines 34-39 make of a slot content that is no slot value (a fragment
    around the member itself, or the completion of its call with the
    default children), which is not interpreted. *)
Inductive JSXElement :=
| Fragment (kids : list ReactNode)
| Uninterpreted (slotContent : Property) (children : ReactNode).

(** The body of [TemplateSlot] after the destructuring of the context
    (lines 26-39), with the two destructured values as arguments. *)
Definition TemplateSlot_body (slotValues hasSlot : Member) (name : string)
    (children : ReactNode) : Result (JSXElement * list Updater) :=
  slotContent ← index slotValues name;
  '(has, updates) ← call "hasSlot" hasSlot name (Node RUndefined);
  if negb (truthy has) then ok (Fragment [children], updates)
  else
    match slotContent with
    | Value slotContent =>
        match isRenderProp slotContent with
        | inl slotContent => ok (Fragment [fn_call slotContent children], updates)
        | inr slotContent => ok (Fragment [slotContent], updates)
        end
    | _ => ok (Uninterpreted slotContent children, updates)
    end.

(** [TemplateSlot] (lines 21-40): the emitted fragment, with the updates a
    call made while rendering dispatched. *)
Definition TemplateSlot (enclosing : option Scope) (name : string) (children : ReactNode)
  : Result (JSXElement * list Updater) :=
  context ← useSlotContext enclosing;
  TemplateSlot_body (member context "slotValues") (member context "hasSlot") name children.

(** ** Slot.tsx *)

(** The layout effect of one render: its dependencies [name] and
    [memoizedContent], and the context functions its closures captured. *)
Record Effect := mkEffect {
  eff_name : string;
  eff_content : SlotChildren;
  eff_setSlotValue : Member;
  eff_removeSlotValue : Member
}.

(** The hook cells of a mounted [Slot]: the [useMemo] cell (dependency and
    value) and the layout effect whose cleanup is pending. *)
Record SlotHooks := mkHooks {
  memo_dep : SlotChildren;
  memo_value : SlotChildren;
  effect : Effect
}.

(** The factory given to [useMemo] (lines 25-29): a render prop is wrapped
    in a new function, anything else is returned as it is. *)
Definition memoize (children : SlotChildren) : Alloc SlotChildren :=
  fun next =>
    match isRenderProp children with
    | inl f =>
        (RenderProp (mkFunction (Wrapper (fn_id f) next)
                       (fun defaultChildren => fn_call f defaultChildren)),
         Pos.succ next)
    | inr _ => (children, next)
    end.

(** [useMemo(factory, [children])]. *)
Definition useMemo (prev : option SlotHooks) (children : SlotChildren) : Alloc (SlotChildren * SlotChildren) :=
  fun next =>
    match prev with
    | Some h =>
        if object_is (memo_dep h) children then ((memo_dep h, memo_value h), next)
        else let '(v, next') := memoize children next in ((children, v), next')
    | None => let '(v, next') := memoize children next in ((children, v), next')
    end.

(** The render function [Slot] (lines 20-42): it returns an empty fragment
    and leaves its hook cells for the commit. *)
Definition Slot (enclosing : option Scope) (prev : option SlotHooks) (name : string)
    (children : SlotChildren) : Alloc (Result (JSXElement * SlotHooks)) :=
  fun next =>
    match useSlotContext enclosing with
    | inl e => (throw e, next)
    | inr context =>
        let setSlotValue := member context "setSlotValue" in
        let removeSlotValue := member context "removeSlotValue" in
        let '((dep, memoizedContent), next') := useMemo prev children next in
        (ok (Fragment [],
             mkHooks dep memoizedContent
               (mkEffect name memoizedContent setSlotValue removeSlotValue)),
         next')
    end.

(** The effect body (line 34): [setSlotValue(name, memoizedContent)]. *)
Definition effect_create (e : Effect) (s : Scope) : Result Scope :=
  '(_, updates) ←
    call "setSlotValue" (eff_setSlotValue e) (eff_name e) (eff_content e);
  ok (dispatch updates s).

(** The cleanup (lines 35-39): [if (removeSlotValue) removeSlotValue(name)]. *)
Definition effect_cleanup (e : Effect) (s : Scope) : Result Scope :=
  if member_truthy (eff_removeSlotValue e) then
    '(_, updates) ←
      call "removeSlotValue" (eff_removeSlotValue e) (eff_name e) (Node RUndefined);
    ok (dispatch updates s)
  else ok s.

(** Whether the dependency list [[name, memoizedContent]] changed. *)
Definition deps_changed (old new : Effect) : bool :=
  negb (String.eqb (eff_name old) (eff_name new))
  || negb (object_is (eff_content old) (eff_content new)).

(** The commit of a render of [Slot]: on mount the effect runs; on an update
    whose dependencies changed the previous cleanup runs, then the effect;
    otherwise the previous effect stays in place. *)
Definition commit (prev : option SlotHooks) (rendered : SlotHooks) (s : Scope)
  : Result (SlotHooks * Scope) :=
  match prev with
  | None =>
      s' ← effect_create (effect rendered) s;
      ok (rendered, s')
  | Some old =>
      if deps_changed (effect old) (effect rendered) then
        s1 ← effect_cleanup (effect old) s;
        s2 ← effect_create (effect rendered) s1;
        ok (rendered, s2)
      else ok (mkHooks (memo_dep rendered) (memo_value rendered) (effect old), s)
  end.

Definition with_next (s : Scope) (next : ref) : Scope :=
  mkScope next (slotValues s) (queue s).

(** A render and commit of [<Slot name={name}>{children}</Slot>] inside the
    scope [s], followed by the render of the provider that the dispatched
    updates schedule. *)
Definition render_Slot (prev : option SlotHooks) (name : string) (children : SlotChildren)
    (s : Scope) : Result (SlotHooks * Scope) :=
  let '(r, next) := Slot (Some s) prev name children (next_id s) in
  '(_, rendered) ← r;
  '(hooks, s') ← commit prev rendered (with_next s next);
  ok (hooks, SlotProvider_render s').

Definition mount_Slot (name : string) (children : SlotChildren) (s : Scope)
  : Result (SlotHooks * Scope) :=
  render_Slot None name children s.

Definition update_Slot (hooks : SlotHooks) (name : string) (children : SlotChildren)
    (s : Scope) : Result (SlotHooks * Scope) :=
  render_Slot (Some hooks) name children s.

(** Unmount: the pending cleanup runs. *)
Definition unmount_Slot (hooks : SlotHooks) (s : Scope) : Result Scope :=
  s' ← effect_cleanup (effect hooks) s;
  ok (SlotProvider_render s').

(** Hook cells left by a render inside a scope: the effect captured the
    provider's two functions. *)
Definition rendered_in_scope (h : SlotHooks) : Prop :=
  eff_setSlotValue (effect h) = MFunction setSlotValue
  ∧ eff_removeSlotValue (effect h) = MFunction removeSlotValue.


(** ** Values used by the test suite *)

(** [<div>Default Content</div>]. *)
Definition defaultContent : ReactNode := RElement 1%positive "div" [RText "Default Content"].

(** [(children) => <div data-testid="transformed">Transformed: {children}</div>]. *)
Definition transformed : SlotRenderPropFunction :=
  mkFunction 2%positive (fun children => RElement 3%positive "div" [RText "Transformed: "; children]).

(** A provider that has just been mounted: [slotValues] is [{}]. *)
Definition emptyScope : Scope := SlotProvider_mount 10%positive.

(** ** Batches of calls and the committed state *)

(** The updaters dispatched by a run of [setSlotValue(name, children)] calls
    inside one [act], in call order. *)
Definition set_batch (writes : list (string * SlotChildren)) : list Updater :=
  map (fun w => setSlotValue_updater w.1 w.2) writes.

(** The updaters dispatched by a run of [removeSlotValue(name)] calls. *)
Definition remove_batch (names : list string) : list Updater :=
  map removeSlotValue_updater names.

(** A scope between two commits: nothing is queued, and the identity of the
    record in the state cell was handed out before the next unused one. *)
Definition committed (s : Scope) : Prop :=
  queue s = [] ∧ (obj_id (slotValues s) < next_id s)%positive.

(** * Properties *)

(** ** Identities and equality *)

Lemma FunctionId_eqb_eq (a b : FunctionId) : FunctionId_eqb a b = true ↔ a = b.
Proof.
  revert b. induction a as [i | k | f IH i]; intros [j | k' | g j]; simpl;
    try (split; [discriminate | intros [=]]).
  - rewrite Pos.eqb_eq. split; [by intros -> | by intros [= ->]].
  - rewrite String.eqb_eq. split; [by intros -> | by intros [= ->]].
  - rewrite andb_true_iff, IH, Pos.eqb_eq. split; [by intros [-> ->] | by intros [= -> ->]].
Qed.

Lemma FunctionId_eqb_refl (a : FunctionId) : FunctionId_eqb a a = true.
Proof. by apply FunctionId_eqb_eq. Qed.

(** The arrow function created around a function is another object. *)
Lemma Wrapper_ne (f : FunctionId) (created : ref) : Wrapper f created ≠ f.
Proof.
  revert created. induction f as [i | k | g IH j]; intros created;
    [discriminate | discriminate | ].
  intros [= E _]. by apply (IH j).
Qed.

Lemma same_value_refl (x : float) : same_value x x = true.
Proof.
  unfold same_value. destruct (Prim2SF x) as [sg | sg | | sg m e]; simpl; try done.
  - by destruct sg.
  - by destruct sg.
  - rewrite Pos.eqb_refl, Z.eqb_refl. by destruct sg.
Qed.

(** [Object.is(v, v)] holds for every value, NaN included. *)
Lemma object_is_refl (v : SlotChildren) : object_is v v = true.
Proof.
  destruct v as [[ | | b | x | t | i ty ks] | f]; simpl; try done.
  - by destruct b.
  - apply same_value_refl.
  - apply String.eqb_refl.
  - apply Pos.eqb_refl.
  - apply FunctionId_eqb_refl.
Qed.

(** Only undefined is [===] to undefined. *)
Lemma strict_eq_undefined (v : SlotChildren) :
  strict_eq (Node RUndefined) v = true ↔ v = Node RUndefined.
Proof.
  split; [ | intros ->; reflexivity].
  destruct v as [[ | | b | x | t | i ty ks] | f]; simpl; done.
Qed.

(** ** The record and its two updaters *)

Lemma prop_in_true (name : string) (o : SlotRecord) :
  prop_in name o = true ↔ is_Some (own o !! name).
Proof. unfold prop_in. apply bool_decide_eq_true. Qed.

Lemma prop_in_false (name : string) (o : SlotRecord) :
  prop_in name o = false ↔ own o !! name = None.
Proof.
  unfold prop_in. rewrite bool_decide_eq_false, <- eq_None_not_Some. done.
Qed.

Lemma prop_get_absent (name : string) (o : SlotRecord) :
  own o !! name = None →
  prop_get o name = if inherited name then Inherited name else Value (Node RUndefined).
Proof. unfold prop_get. by intros ->. Qed.

Lemma prop_get_present (name : string) (o : SlotRecord) (v : SlotChildren) :
  own o !! name = Some v → prop_get o name = v.
Proof. unfold prop_get. by intros ->. Qed.

(** A read depends on the entry of the name only. *)
Lemma prop_get_other (o o' : SlotRecord) (m : string) :
  own o' !! m = own o !! m → prop_get o' m = prop_get o m.
Proof. unfold prop_get. by intros ->. Qed.

(** The two outcomes of the setter's updater. *)
Lemma setSlotValue_updater_cases (name : string) (children : SlotChildren)
    (prev : SlotRecord) (next : ref) :
  (strict_eq (prop_get prev name) children = true
   ∧ setSlotValue_updater name children prev next = (prev, next))
  ∨ (strict_eq (prop_get prev name) children = false
     ∧ setSlotValue_updater name children prev next
       = (mkRecord next (<[name := children]> (own prev)), Pos.succ next)).
Proof.
  unfold setSlotValue_updater.
  destruct (strict_eq (prop_get prev name) children); [left | right]; done.
Qed.

(** The two outcomes of the remover's updater. *)
Lemma removeSlotValue_updater_cases (name : string) (prev : SlotRecord) (next : ref) :
  (in_operator name prev = false ∧ removeSlotValue_updater name prev next = (prev, next))
  ∨ (in_operator name prev = true
     ∧ removeSlotValue_updater name prev next
       = (mkRecord next (delete name (own prev)), Pos.succ next)).
Proof.
  unfold removeSlotValue_updater.
  destruct (in_operator name prev); simpl; [right | left]; done.
Qed.

(** The no-change test of [set(n, v)] reads [n] only. *)
Lemma setSlotValue_updater_properties (n : string) (v : SlotChildren) (prev : SlotRecord)
    (next : ref) :
  own (setSlotValue_updater n v prev next).1
  = if strict_eq (prop_get prev n) v then own prev else <[n := v]> (own prev).
Proof. unfold setSlotValue_updater. by destruct (strict_eq (prop_get prev n) v). Qed.

(** On either branch the remover's updater leaves the entries without [n]. *)
Lemma removeSlotValue_updater_properties (n : string) (prev : SlotRecord) (next : ref) :
  own (removeSlotValue_updater n prev next).1 = delete n (own prev).
Proof.
  destruct (removeSlotValue_updater_cases n prev next) as [[L ->] | [_ ->]]; simpl.
  - symmetry. apply delete_id. apply prop_in_false.
    unfold in_operator in L. by apply orb_false_iff in L as [L _].
  - done.
Qed.

(** After the remover's updater the name has no entry, whatever the record was. *)
Lemma removeSlotValue_updater_absent (name : string) (prev : SlotRecord) (next : ref) :
  own (removeSlotValue_updater name prev next).1 !! name = None.
Proof. rewrite removeSlotValue_updater_properties. apply lookup_delete_eq. Qed.

(** A name without entry, whose read is not [===] to the value, holds the
    value after the setter's updater. *)
Lemma setSlotValue_updater_fresh (n : string) (v : SlotChildren) (prev : SlotRecord)
    (next : ref) :
  strict_eq (prop_get prev n) v = false →
  own (setSlotValue_updater n v prev next).1 !! n = Some v.
Proof.
  intros E. rewrite setSlotValue_updater_properties, E. apply lookup_insert_eq.
Qed.

(** After the setter's updater a value other than undefined, and other than
    the inherited member under the name, has left an entry. *)
Lemma setSlotValue_updater_present (name : string) (children : SlotChildren)
    (prev : SlotRecord) (next : ref) :
  children ≠ Node RUndefined →
  strict_eq (Inherited name) children = false →
  is_Some (own (setSlotValue_updater name children prev next).1 !! name).
Proof.
  intros Hdef Hinh. rewrite setSlotValue_updater_properties.
  destruct (strict_eq (prop_get prev name) children) eqn:E.
  - destruct (own prev !! name) as [w | ] eqn:L; [done | ].
    rewrite (prop_get_absent _ _ L) in E. destruct (inherited name).
    + congruence.
    + apply strict_eq_undefined in E. done.
  - rewrite lookup_insert_eq. by eexists.
Qed.

(** Setting undefined on a name that has no entry and is not inherited is
    taken for an unchanged value: the record is returned as it was. *)
Lemma setSlotValue_updater_undefined (name : string) (prev : SlotRecord) (next : ref) :
  own prev !! name = None → inherited name = false →
  setSlotValue_updater name (Node RUndefined) prev next = (prev, next).
Proof.
  intros L I. unfold setSlotValue_updater. by rewrite (prop_get_absent _ _ L), I.
Qed.

Lemma setSlotValue_updater_other (n m : string) (v : SlotChildren) (prev : SlotRecord)
    (next : ref) :
  n ≠ m → own (setSlotValue_updater n v prev next).1 !! m = own prev !! m.
Proof.
  intros Hne.
  destruct (setSlotValue_updater_cases n v prev next) as [[_ ->] | [_ ->]]; simpl.
  - done.
  - by apply lookup_insert_ne.
Qed.

Lemma removeSlotValue_updater_other (n m : string) (prev : SlotRecord) (next : ref) :
  n ≠ m → own (removeSlotValue_updater n prev next).1 !! m = own prev !! m.
Proof.
  intros Hne. rewrite removeSlotValue_updater_properties. by apply lookup_delete_ne.
Qed.

(** ** The provider *)

Lemma run_queue_app (q1 q2 : list Updater) (state : SlotRecord) (next : ref) :
  run_queue (q1 ++ q2) state next
  = run_queue q2 (run_queue q1 state next).1 (run_queue q1 state next).2.
Proof.
  revert state next. induction q1 as [ | u q1 IH]; intros state next; simpl.
  - done.
  - destruct (u state next) as [state' next']. apply IH.
Qed.

(** The state after the render that follows one more dispatched updater. *)
Lemma render_dispatch_one (u : Updater) (s : Scope) :
  slotValues (SlotProvider_render (dispatch [u] s))
  = (u (slotValues (SlotProvider_render s)) (next_id (SlotProvider_render s))).1.
Proof.
  unfold SlotProvider_render, dispatch. simpl. rewrite run_queue_app.
  destruct (run_queue (queue s) (slotValues s) (next_id s)) as [state next]. simpl.
  by destruct (u state next).
Qed.

Lemma render_queue_empty (s : Scope) : queue (SlotProvider_render s) = [].
Proof.
  unfold SlotProvider_render.
  by destruct (run_queue (queue s) (slotValues s) (next_id s)).
Qed.

Lemma render_committed (s : Scope) : queue s = [] → SlotProvider_render s = s.
Proof. destruct s as [n st q]. simpl. intros ->. done. Qed.

(** Inside a scope both capabilities are found and their calls return. *)
Lemma act_setSlotValue_ok (name : string) (children : SlotChildren) (s : Scope) :
  act_setSlotValue name children s
  = ok (SlotProvider_render (dispatch [setSlotValue_updater name children] s)).
Proof. reflexivity. Qed.

Lemma act_removeSlotValue_ok (name : string) (s : Scope) :
  act_removeSlotValue name s
  = ok (SlotProvider_render (dispatch [removeSlotValue_updater name] s)).
Proof. reflexivity. Qed.

(** ** The resolver *)

(** The context object of a provider has no [hasSlot] property. *)
Lemma provider_value_hasSlot (s : Scope) : member (provider_value s) "hasSlot" = MUndefined.
Proof. reflexivity. Qed.

(** Inside a scope [TemplateSlot] reads [hasSlot] from the context object,
    gets undefined, and its call [hasSlot(name)] throws. *)
Lemma TemplateSlot_in_scope (s : Scope) (name : string) (children : ReactNode) :
  TemplateSlot (Some s) name children = throw (TypeError "hasSlot is not a function").
Proof. reflexivity. Qed.

(** What lines 26-39 compute when [hasSlot] is a function that answers
    [name in slotValues]: the default for an absent name, the transform
    applied to the default, or the registered content. *)
Lemma TemplateSlot_body_resolves (o : SlotRecord) (hasSlot : ContextFunction)
    (name : string) (children : ReactNode) :
  (∀ arg, hasSlot name arg = (RBool (prop_in name o), [])) →
  TemplateSlot_body (MRecord o) (MFunction hasSlot) name children
  = ok (Fragment [match own o !! name with
                  | None => children
                  | Some (RenderProp f) => fn_call f children
                  | Some (Node c) => c
                  end], []).
Proof.
  intros Hhas. unfold TemplateSlot_body. simpl. rewrite Hhas. simpl.
  unfold prop_in, prop_get.
  destruct (own o !! name) as [[c | f] | ]; simpl; reflexivity.
Qed.

(** ** The writer *)

(** The memoized content is undefined only for undefined children. *)
Lemma memoize_undefined (children : SlotChildren) (next : ref) :
  (memoize children next).1 = Node RUndefined → children = Node RUndefined.
Proof. destruct children as [c | f]; simpl; [done | discriminate]. Qed.

(** Mounting a [Slot] inside a scope returns: the effect dispatches
    [setSlotValue(name, memoizedContent)]. *)
Lemma mount_Slot_ok (name : string) (children : SlotChildren) (s : Scope) :
  mount_Slot name children s
  = ok (mkHooks children (memoize children (next_id s)).1
          (mkEffect name (memoize children (next_id s)).1
             (MFunction setSlotValue) (MFunction removeSlotValue)),
        SlotProvider_render
          (dispatch [setSlotValue_updater name (memoize children (next_id s)).1]
             (with_next s (memoize children (next_id s)).2))).
Proof.
  unfold mount_Slot, render_Slot, Slot. simpl.
  destruct (memoize children (next_id s)) as [memo next]. reflexivity.
Qed.

(** Unmounting returns: the cleanup dispatches [removeSlotValue(name)]. *)
Lemma unmount_Slot_ok (h : SlotHooks) (s : Scope) :
  rendered_in_scope h →
  unmount_Slot h s
  = ok (SlotProvider_render (dispatch [removeSlotValue_updater (eff_name (effect h))] s)).
Proof.
  intros [_ Hrem]. unfold unmount_Slot, effect_cleanup. rewrite Hrem. reflexivity.
Qed.

(** An update that changes the name and keeps the children: the memo cell
    is reused, the old name is removed, then the new name is set. *)
Lemma update_Slot_renamed (h : SlotHooks) (name' : string) (children : SlotChildren)
    (s : Scope) :
  rendered_in_scope h →
  object_is (memo_dep h) children = true →
  eff_name (effect h) ≠ name' →
  update_Slot h name' children s
  = ok (mkHooks (memo_dep h) (memo_value h)
          (mkEffect name' (memo_value h) (MFunction setSlotValue) (MFunction removeSlotValue)),
        SlotProvider_render
          (dispatch [setSlotValue_updater name' (memo_value h)]
             (dispatch [removeSlotValue_updater (eff_name (effect h))] s))).
Proof.
  intros [_ Hrem] Hdep Hne.
  unfold update_Slot, render_Slot, Slot, useMemo. simpl. rewrite Hdep. simpl.
  unfold deps_changed. simpl.
  apply String.eqb_neq in Hne. rewrite Hne. simpl.
  unfold effect_cleanup. rewrite Hrem. simpl.
  destruct s as [n st q]. reflexivity.
Qed.

(** A render of [Slot] inside a scope returns the empty fragment. *)
Lemma Slot_in_scope (s : Scope) (prev : option SlotHooks) (name : string)
    (children : SlotChildren) (next : ref) :
  Slot (Some s) prev name children next
  = (ok (Fragment [],
         mkHooks (useMemo prev children next).1.1 (useMemo prev children next).1.2
           (mkEffect name (useMemo prev children next).1.2
              (MFunction setSlotValue) (MFunction removeSlotValue))),
     (useMemo prev children next).2).
Proof.
  unfold Slot. simpl. by destruct (useMemo prev children next) as [[dep memo] next'].
Qed.

(** An update inside a scope returns, whatever the new props. *)
Lemma update_Slot_returns (h : SlotHooks) (name : string) (children : SlotChildren)
    (s : Scope) :
  rendered_in_scope h →
  ∃ h' s', update_Slot h name children s = ok (h', s') ∧ rendered_in_scope h'.
Proof.
  intros [Hset Hrem].
  unfold update_Slot, render_Slot. rewrite Slot_in_scope. simpl. unfold commit.
  match goal with |- context [deps_changed ?a ?b] => destruct (deps_changed a b) end; simpl.
  - unfold effect_cleanup. rewrite Hrem. simpl. eexists _, _. split; [reflexivity | ].
    split; reflexivity.
  - eexists _, _. split; [reflexivity | ]. split; simpl; assumption.
Qed.

(** The memoized content is no member of [Object.prototype]: it is a node
    or a wrapper created by [Slot]. *)
Lemma strict_eq_inherited_memoize (key : string) (children : SlotChildren) (next : ref) :
  strict_eq (Inherited key) (memoize children next).1 = false.
Proof.
  destruct children as [c | f]; simpl; [done | ]. apply andb_false_r.
Qed.

(** On a name without entry, the setter's test fails for a memoized content
    other than undefined. *)
Lemma guard_fails_on_free_name (n : string) (children : SlotChildren) (prev : SlotRecord)
    (next : ref) :
  own prev !! n = None →
  children ≠ Node RUndefined →
  strict_eq (prop_get prev n) (memoize children next).1 = false.
Proof.
  intros L Hdef. rewrite (prop_get_absent _ _ L). destruct (inherited n).
  - apply strict_eq_inherited_memoize.
  - destruct (strict_eq (Node RUndefined) (memoize children next).1) eqn:E; [ | done].
    apply strict_eq_undefined, memoize_undefined in E. done.
Qed.

(** The render of a scope with nothing queued but one updater. *)
Lemma render_dispatch_committed (u : Updater) (s : Scope) :
  queue s = [] →
  SlotProvider_render (dispatch [u] s)
  = mkScope (u (slotValues s) (next_id s)).2 (u (slotValues s) (next_id s)).1 [].
Proof.
  destruct s as [nx st q]. simpl. intros ->. unfold SlotProvider_render, dispatch. simpl.
  by destruct (u st nx).
Qed.

(** ** Writes seen through the scope *)

(** A value other than undefined set on a name without entry, which no
    object inherits, is registered. *)
Lemma act_setSlotValue_unset (s : Scope) (n : string) (v : SlotChildren) :
  v ≠ Node RUndefined →
  inherited n = false →
  own (slotValues (SlotProvider_render s)) !! n = None →
  ∃ s', act_setSlotValue n v s = ok s' ∧ own (slotValues s') !! n = Some v.
Proof.
  intros Hdef Hinh Habs. rewrite act_setSlotValue_ok. eexists. split; [reflexivity | ].
  rewrite render_dispatch_one. apply setSlotValue_updater_fresh.
  rewrite (prop_get_absent _ _ Habs), Hinh.
  destruct (strict_eq (Node RUndefined) v) eqn:E; [ | done].
  apply strict_eq_undefined in E. done.
Qed.

(** [set(n, v)] twice with the same reference, for a value that is [===] to
    itself: the second call leaves the record instance of the first. *)
Lemma act_setSlotValue_twice (s s1 s2 : Scope) (n : string) (v : SlotChildren) :
  strict_eq v v = true →
  act_setSlotValue n v s = ok s1 →
  act_setSlotValue n v s1 = ok s2 →
  slotValues s2 = slotValues s1.
Proof.
  intros Hrefl. rewrite !act_setSlotValue_ok. intros [= <-] [= <-].
  rewrite (render_dispatch_one _ (SlotProvider_render _)).
  rewrite (render_committed (SlotProvider_render _)) by apply render_queue_empty.
  set (s1 := SlotProvider_render (dispatch [setSlotValue_updater n v] s)).
  assert (strict_eq (prop_get (slotValues s1) n) v = true) as E.
  { subst s1. rewrite render_dispatch_one.
    destruct (setSlotValue_updater_cases n v (slotValues (SlotProvider_render s))
                (next_id (SlotProvider_render s))) as [[E ->] | [_ ->]]; simpl.
    - done.
    - unfold prop_get. simpl. by rewrite lookup_insert_eq. }
  unfold setSlotValue_updater. by rewrite E.
Qed.

(** Renaming a rendered [Slot] to a name without entry, with a memoized
    content that is neither undefined nor an inherited member: the old name
    loses its entry and the new name holds the memoized content. *)
Lemma update_Slot_rename_registers (h : SlotHooks) (n' : string) (children : SlotChildren)
    (s : Scope) :
  rendered_in_scope h →
  object_is (memo_dep h) children = true →
  eff_name (effect h) ≠ n' →
  strict_eq (Node RUndefined) (memo_value h) = false →
  strict_eq (Inherited n') (memo_value h) = false →
  own (slotValues (SlotProvider_render s)) !! n' = None →
  ∃ h' s', update_Slot h n' children s = ok (h', s')
    ∧ memo_value h' = memo_value h
    ∧ own (slotValues s') !! eff_name (effect h) = None
    ∧ own (slotValues s') !! n' = Some (memo_value h).
Proof.
  intros Hin Hdep Hne Hdef Hinh Hfree.
  rewrite (update_Slot_renamed h n' children s Hin Hdep Hne).
  eexists _, _. split; [reflexivity | ]. split; [reflexivity | ].
  rewrite render_dispatch_one. split.
  - rewrite setSlotValue_updater_other by (intros E; by apply Hne).
    rewrite render_dispatch_one. apply removeSlotValue_updater_absent.
  - apply setSlotValue_updater_fresh.
    rewrite prop_get_absent.
    + by destruct (inherited n').
    + rewrite render_dispatch_one, removeSlotValue_updater_other by done. exact Hfree.
Qed.

(** ** Statements of the specification *)

(** C1 (the code departs from the claim).  The name "nonexistent" has no
    entry in the record of a scope; a [TemplateSlot] for it with default
    children [<div>Default Content</div>] does not emit the default: the
    render throws a TypeError, because the context object has no [hasSlot]. *)
Theorem TemplateSlot_unset_name_throws :
  own (slotValues emptyScope) !! "nonexistent" = None
  ∧ TemplateSlot (Some emptyScope) "nonexistent" defaultContent
    = throw (TypeError "hasSlot is not a function")
  ∧ TemplateSlot (Some emptyScope) "nonexistent" defaultContent
    ≠ ok (Fragment [defaultContent], []).
Proof.
  split; [reflexivity | ]. rewrite TemplateSlot_in_scope. split; [reflexivity | discriminate].
Qed.

(** C2 (the code departs from the claim).  Inside an established scope a
    render of [TemplateSlot], with any name and any default, raises an error
    that is not the one for use outside a scope: a TypeError. *)
Theorem TemplateSlot_in_scope_raises_TypeError (s : Scope) (name : string)
    (children : ReactNode) :
  TemplateSlot (Some s) name children = throw (TypeError "hasSlot is not a function")
  ∧ TemplateSlot (Some s) name children
    ≠ throw (Error "useSlotContext must be used within a SlotProvider")
  ∧ ∀ out, TemplateSlot (Some s) name children ≠ ok out.
Proof.
  rewrite TemplateSlot_in_scope. split; [reflexivity | ]. split; [discriminate | ].
  intros out. discriminate.
Qed.

(** C3 (the code departs from the claim).  After [setSlotValue("test", f)]
    with [f] a render prop, the record maps "test" to [f], and a
    [TemplateSlot] for "test" with default [d] does not emit [f(d)]: the
    render throws a TypeError. *)
Theorem TemplateSlot_transform_throws :
  ∃ s1, act_setSlotValue "test" (RenderProp transformed) emptyScope = ok s1
    ∧ own (slotValues s1) !! "test" = Some (RenderProp transformed)
    ∧ TemplateSlot (Some s1) "test" defaultContent
      = throw (TypeError "hasSlot is not a function")
    ∧ TemplateSlot (Some s1) "test" defaultContent
      ≠ ok (Fragment [fn_call transformed defaultContent], []).
Proof.
  eexists. split; [reflexivity | ]. split; [vm_compute; reflexivity | ].
  rewrite TemplateSlot_in_scope. split; [reflexivity | discriminate].
Qed.

(** C4 (the code departs from the claim).  After [setSlotValue("test", null)]
    the record maps "test" to null, and a [TemplateSlot] for "test" does not
    emit null: the render throws a TypeError.  After
    [setSlotValue("footer", undefined)] the record has no entry for "footer"
    at all, and the render throws as well. *)
Theorem TemplateSlot_override_throws :
  (∃ s1, act_setSlotValue "test" (Node RNull) emptyScope = ok s1
     ∧ own (slotValues s1) !! "test" = Some (Node RNull)
     ∧ TemplateSlot (Some s1) "test" defaultContent
       = throw (TypeError "hasSlot is not a function")
     ∧ TemplateSlot (Some s1) "test" defaultContent ≠ ok (Fragment [RNull], []))
  ∧ (∃ s1, act_setSlotValue "footer" (Node RUndefined) emptyScope = ok s1
       ∧ own (slotValues s1) !! "footer" = None
       ∧ TemplateSlot (Some s1) "footer" defaultContent
         = throw (TypeError "hasSlot is not a function")
       ∧ TemplateSlot (Some s1) "footer" defaultContent ≠ ok (Fragment [RUndefined], [])).
Proof.
  split.
  - eexists. split; [reflexivity | ]. split; [vm_compute; reflexivity | ].
    rewrite TemplateSlot_in_scope. split; [reflexivity | discriminate].
  - eexists. split; [reflexivity | ]. split; [vm_compute; reflexivity | ].
    rewrite TemplateSlot_in_scope. split; [reflexivity | discriminate].
Qed.

(** C5 (the code departs from the claim).  "undefinedSlot" has no entry;
    after [setSlotValue("undefinedSlot", undefined)] it still has none, and
    the record is the instance it was. *)
Theorem set_undefined_leaves_name_unset :
  ∃ s1, act_setSlotValue "undefinedSlot" (Node RUndefined) emptyScope = ok s1
    ∧ prop_in "undefinedSlot" (slotValues emptyScope) = false
    ∧ prop_in "undefinedSlot" (slotValues s1) = false
    ∧ slotValues s1 = slotValues emptyScope.
Proof.
  eexists. split; [reflexivity | ]. repeat split; vm_compute; reflexivity.
Qed.

(** C6 (the code departs from the claim).  In a new provider "toString" has
    no entry, yet after [removeSlotValue("toString")] the state holds another
    record instance, with the same properties.  And a second
    [setSlotValue("count", NaN)] puts another instance in the state, with the
    same properties as after the first. *)
Theorem noop_writes_that_change_the_instance :
  (∃ s1, act_removeSlotValue "toString" emptyScope = ok s1
     ∧ prop_in "toString" (slotValues emptyScope) = false
     ∧ same_instance (slotValues s1) (slotValues emptyScope) = false
     ∧ own (slotValues s1) = own (slotValues emptyScope))
  ∧ (∃ s1 s2, act_setSlotValue "count" (Node (RNumber nan)) emptyScope = ok s1
       ∧ act_setSlotValue "count" (Node (RNumber nan)) s1 = ok s2
       ∧ same_instance (slotValues s2) (slotValues s1) = false
       ∧ own (slotValues s2) = own (slotValues s1)).
Proof.
  split.
  - eexists. split; [reflexivity | ]. repeat split; vm_compute; reflexivity.
  - eexists _, _. split; [reflexivity | ]. split; [reflexivity | ].
    split; vm_compute; reflexivity.
Qed.




(** C8.  For distinct names [n] and [m], neither [set(n, v)] nor [remove(n)]
    changes what the record holds for [m]: the lookup of [m] (its presence
    and the very value it holds) is the same before and after. *)
Theorem writes_leave_other_names (prev : SlotRecord) (n m : string) (v : SlotChildren)
    (next : ref) :
  n ≠ m →
  own (setSlotValue_updater n v prev next).1 !! m = own prev !! m
  ∧ own (removeSlotValue_updater n prev next).1 !! m = own prev !! m
  ∧ prop_in m (setSlotValue_updater n v prev next).1 = prop_in m prev
  ∧ prop_in m (removeSlotValue_updater n prev next).1 = prop_in m prev.
Proof.
  intros Hne. unfold prop_in.
  rewrite (setSlotValue_updater_other n m v prev next Hne).
  rewrite (removeSlotValue_updater_other n m prev next Hne).
  done.
Qed.

Lemma writes_leave_other_names_witness :
  let prev := mkRecord 11%positive {["keep1" := Node (RText "content1")]} in
  own (setSlotValue_updater "remove" (Node (RText "content2")) prev 12%positive).1 !! "keep1"
  = Some (Node (RText "content1"))
  ∧ own (removeSlotValue_updater "remove" prev 12%positive).1 !! "keep1"
    = Some (Node (RText "content1")).
Proof.
  intros prev.
  destruct (writes_leave_other_names prev "remove" "keep1" (Node (RText "content2"))
              12%positive) as (Hset & Hrem & _); [discriminate | ].
  split.
  - rewrite Hset. vm_compute. reflexivity.
  - rewrite Hrem. vm_compute. reflexivity.
Defined.

(** C9.  Without an enclosing provider, [useSlotContext] throws the error
    "useSlotContext must be used within a SlotProvider", and so do a render
    of [Slot] and a render of [TemplateSlot], whatever their props: the
    error is their result. *)
Theorem out_of_scope_raises (prev : option SlotHooks) (name : string)
    (content : SlotChildren) (children : ReactNode) (next : ref) :
  useSlotContext None = throw (Error "useSlotContext must be used within a SlotProvider")
  ∧ Slot None prev name content next
    = (throw (Error "useSlotContext must be used within a SlotProvider"), next)
  ∧ TemplateSlot None name children
    = throw (Error "useSlotContext must be used within a SlotProvider").
Proof. repeat split. Qed.

(** C10 (the code departs from the claim).  A [Slot] without children is
    mounted under "a" and then renamed to "b" with the same (undefined)
    children: "a" has no entry afterwards, and neither has "b". *)
Theorem Slot_rename_undefined_content_unregistered :
  ∃ h s1 h' s2,
    mount_Slot "a" (Node RUndefined) emptyScope = ok (h, s1)
    ∧ update_Slot h "b" (Node RUndefined) s1 = ok (h', s2)
    ∧ memo_value h' = Node RUndefined
    ∧ prop_in "a" (slotValues s2) = false
    ∧ prop_in "b" (slotValues s2) = false.
Proof.
  eexists _, _, _, _.
  split; [reflexivity | ]. split; [reflexivity | ]. repeat split.
Qed.

(** ** Further properties of the registry *)

(** What the record reads at [name] after the setter's updater is [===] to
    the value given, when that value is [===] to itself. *)
Lemma setSlotValue_updater_reads (name : string) (children : SlotChildren)
    (prev : SlotRecord) (next : ref) :
  strict_eq children children = true →
  strict_eq (prop_get (setSlotValue_updater name children prev next).1 name) children = true.
Proof.
  intros Hrefl.
  destruct (setSlotValue_updater_cases name children prev next) as [[E ->] | [_ ->]]; simpl.
  - done.
  - unfold prop_get. simpl. by rewrite lookup_insert_eq.
Qed.

(** X1.  For a value that is [===] to itself (every value but NaN): after
    [set(n, v)] the record reads, at [n], a value [===] to [v], and the same
    call made again returns the record of the first call, the same instance,
    without creating an object. *)
Theorem setSlotValue_read_back_idempotent (prev : SlotRecord) (n : string)
    (v : SlotChildren) (next : ref) :
  strict_eq v v = true →
  strict_eq (prop_get (setSlotValue_updater n v prev next).1 n) v = true
  ∧ setSlotValue_updater n v (setSlotValue_updater n v prev next).1
      (setSlotValue_updater n v prev next).2
    = setSlotValue_updater n v prev next.
Proof.
  intros Hrefl.
  pose proof (setSlotValue_updater_reads n v prev next Hrefl) as R.
  split; [exact R | ].
  destruct (setSlotValue_updater n v prev next) as [r nx]. simpl in *.
  unfold setSlotValue_updater. by rewrite R.
Qed.

Lemma setSlotValue_read_back_idempotent_witness :
  let v := Node (RNumber one) in
  let prev := mkRecord 11%positive {["toString" := Node (RText "header")]} in
  strict_eq (prop_get (setSlotValue_updater "toString" v prev 12%positive).1 "toString") v
  = true
  ∧ setSlotValue_updater "toString" v
      (setSlotValue_updater "toString" v prev 12%positive).1
      (setSlotValue_updater "toString" v prev 12%positive).2
    = setSlotValue_updater "toString" v prev 12%positive.
Proof.
  intros v prev.
  apply (setSlotValue_read_back_idempotent prev "toString" v 12%positive).
  vm_compute. reflexivity.
Defined.

(** X2.  For a name that is no member of [Object.prototype]: after
    [set(n, v)] the name has an entry exactly when [v] is not undefined or it
    had an entry before; setting undefined never creates an entry and never
    drops one. *)
Theorem setSlotValue_presence (prev : SlotRecord) (n : string) (v : SlotChildren)
    (next : ref) :
  inherited n = false →
  prop_in n (setSlotValue_updater n v prev next).1 = true
  ↔ v ≠ Node RUndefined ∨ prop_in n prev = true.
Proof.
  intros Hinh. rewrite !prop_in_true, setSlotValue_updater_properties.
  destruct (strict_eq (prop_get prev n) v) eqn:E.
  - split; [by right | ]. intros [Hdef | Hin]; [ | done].
    destruct (own prev !! n) as [w | ] eqn:L; [done | ].
    rewrite (prop_get_absent _ _ L), Hinh in E. apply strict_eq_undefined in E. done.
  - rewrite lookup_insert_eq. split; [ | by eexists]. intros _.
    destruct (strict_eq (Node RUndefined) v) eqn:U.
    + apply strict_eq_undefined in U. subst v. right.
      destruct (own prev !! n) as [w | ] eqn:L; [done | ].
      rewrite (prop_get_absent _ _ L), Hinh in E. discriminate.
    + left. intros ->. discriminate.
Qed.

Lemma setSlotValue_presence_witness :
  let prev := mkRecord 11%positive {["header" := Node (RText "Header")]} in
  prop_in "footer" (setSlotValue_updater "footer" (Node RNull) prev 12%positive).1 = true
  ∧ prop_in "header" (setSlotValue_updater "header" (Node RUndefined) prev 12%positive).1 = true
  ∧ prop_in "footer" (setSlotValue_updater "footer" (Node RUndefined) prev 12%positive).1 ≠ true.
Proof.
  intros prev. split; [ | split].
  - apply (setSlotValue_presence prev "footer" (Node RNull) 12%positive); [reflexivity | ].
    left. discriminate.
  - apply (setSlotValue_presence prev "header" (Node RUndefined) 12%positive);
      [reflexivity | ].
    right. vm_compute. reflexivity.
  - intros H.
    apply (setSlotValue_presence prev "footer" (Node RUndefined) 12%positive) in H;
      [ | reflexivity].
    destruct H as [H | H]; [by apply H | vm_compute in H; discriminate].
Defined.

(** X3.  After [remove(n)] the name [n] has no entry, whatever the record
    held.  For a name that is no member of [Object.prototype] it then reads as
    undefined and a second [remove(n)] returns the record of the first, the
    same instance; for a member of [Object.prototype] it reads as the
    inherited member and a second [remove(n)] returns another instance. *)
Theorem removeSlotValue_absent_idempotent (prev : SlotRecord) (n : string) (next : ref) :
  prop_in n (removeSlotValue_updater n prev next).1 = false
  ∧ (inherited n = false →
     prop_get (removeSlotValue_updater n prev next).1 n = Node RUndefined
     ∧ removeSlotValue_updater n (removeSlotValue_updater n prev next).1
         (removeSlotValue_updater n prev next).2
       = removeSlotValue_updater n prev next)
  ∧ (inherited n = true →
     prop_get (removeSlotValue_updater n prev next).1 n = Inherited n
     ∧ same_instance
         (removeSlotValue_updater n (removeSlotValue_updater n prev next).1
            (removeSlotValue_updater n prev next).2).1
         (removeSlotValue_updater n prev next).1 = false).
Proof.
  pose proof (removeSlotValue_updater_absent n prev next) as A.
  split; [by apply prop_in_false | ]. split; intros Hinh.
  - split; [by rewrite (prop_get_absent _ _ A), Hinh | ].
    destruct (removeSlotValue_updater n prev next) as [r nx]. simpl in *.
    unfold removeSlotValue_updater, in_operator.
    apply prop_in_false in A. by rewrite A, Hinh.
  - split; [by rewrite (prop_get_absent _ _ A), Hinh | ].
    unfold removeSlotValue_updater, in_operator. rewrite Hinh, !orb_true_r. simpl.
    unfold same_instance. simpl. apply Pos.eqb_neq. lia.
Qed.

Lemma removeSlotValue_absent_idempotent_witness :
  let prev := mkRecord 11%positive {["header" := Node (RText "Header")]} in
  removeSlotValue_updater "header" (removeSlotValue_updater "header" prev 12%positive).1
    (removeSlotValue_updater "header" prev 12%positive).2
  = removeSlotValue_updater "header" prev 12%positive
  ∧ same_instance
      (removeSlotValue_updater "toString"
         (removeSlotValue_updater "toString" prev 12%positive).1
         (removeSlotValue_updater "toString" prev 12%positive).2).1
      (removeSlotValue_updater "toString" prev 12%positive).1 = false.
Proof.
  intros prev. split.
  - apply (removeSlotValue_absent_idempotent prev "header" 12%positive). reflexivity.
  - apply (removeSlotValue_absent_idempotent prev "toString" 12%positive). reflexivity.
Defined.

(** X4.  [set(n, v)] followed by [remove(n)] leaves the properties that
    [remove(n)] alone leaves: those of the record without [n]. *)
Theorem set_then_remove (prev : SlotRecord) (n : string) (v : SlotChildren) (next : ref) :
  own (removeSlotValue_updater n (setSlotValue_updater n v prev next).1
         (setSlotValue_updater n v prev next).2).1
  = delete n (own prev).
Proof.
  rewrite removeSlotValue_updater_properties, setSlotValue_updater_properties.
  destruct (strict_eq (prop_get prev n) v); [done | apply delete_insert_eq].
Qed.

(** X5.  Writes to distinct names commute: [set(n, v)] then [set(m, w)]
    leaves the properties that [set(m, w)] then [set(n, v)] leaves, and the
    same holds for [set(n, v)] and [remove(m)]. *)
Theorem writes_to_distinct_names_commute (prev : SlotRecord) (n m : string)
    (v w : SlotChildren) (a b : ref) :
  n ≠ m →
  own (setSlotValue_updater m w (setSlotValue_updater n v prev a).1
         (setSlotValue_updater n v prev a).2).1
  = own (setSlotValue_updater n v (setSlotValue_updater m w prev b).1
           (setSlotValue_updater m w prev b).2).1
  ∧ own (removeSlotValue_updater m (setSlotValue_updater n v prev a).1
           (setSlotValue_updater n v prev a).2).1
    = own (setSlotValue_updater n v (removeSlotValue_updater m prev b).1
             (removeSlotValue_updater m prev b).2).1.
Proof.
  intros Hne. split.
  - rewrite !setSlotValue_updater_properties.
    rewrite (prop_get_other prev (setSlotValue_updater n v prev a).1 m)
      by (by apply setSlotValue_updater_other).
    rewrite (prop_get_other prev (setSlotValue_updater m w prev b).1 n)
      by (by apply setSlotValue_updater_other).
    destruct (strict_eq (prop_get prev n) v), (strict_eq (prop_get prev m) w); try done.
    apply insert_insert_ne. congruence.
  - rewrite removeSlotValue_updater_properties, !setSlotValue_updater_properties.
    rewrite (prop_get_other prev (removeSlotValue_updater m prev b).1 n)
      by (by apply removeSlotValue_updater_other).
    rewrite removeSlotValue_updater_properties.
    destruct (strict_eq (prop_get prev n) v); [done | ].
    apply delete_insert_ne. congruence.
Qed.

Lemma writes_to_distinct_names_commute_witness :
  let prev := mkRecord 11%positive {["slot1" := Node (RText "content1")]} in
  own (setSlotValue_updater "slot3" (Node (RText "content3"))
         (setSlotValue_updater "slot2" (Node (RText "content2")) prev 12%positive).1
         (setSlotValue_updater "slot2" (Node (RText "content2")) prev 12%positive).2).1
  = own (setSlotValue_updater "slot2" (Node (RText "content2"))
           (setSlotValue_updater "slot3" (Node (RText "content3")) prev 12%positive).1
           (setSlotValue_updater "slot3" (Node (RText "content3")) prev 12%positive).2).1.
Proof.
  intros prev.
  apply (writes_to_distinct_names_commute prev "slot2" "slot3"
           (Node (RText "content2")) (Node (RText "content3")) 12%positive 12%positive).
  discriminate.
Defined.

(** X6.  After a run of [removeSlotValue] calls a name reads as it did
    before unless it is among the removed ones, which have no entry; when
    every name of the record is among them, the record is left empty. *)
Theorem remove_batch_clears (names : list string) (prev : SlotRecord) (next : ref) :
  (∀ m, own (run_queue (remove_batch names) prev next).1 !! m
        = if bool_decide (m ∈ names) then None else own prev !! m)
  ∧ ((∀ m, is_Some (own prev !! m) → m ∈ names) →
     own (run_queue (remove_batch names) prev next).1 = ∅).
Proof.
  assert (∀ m, own (run_queue (remove_batch names) prev next).1 !! m
               = if bool_decide (m ∈ names) then None else own prev !! m) as Hlook.
  { revert prev next. induction names as [ | n names IH]; intros prev next m; simpl.
    - done.
    - destruct (removeSlotValue_updater n prev next) as [r nx] eqn:E.
      rewrite IH.
      assert (own r = delete n (own prev)) as ->.
      { rewrite <- (removeSlotValue_updater_properties n prev next). by rewrite E. }
      destruct (decide (m = n)) as [-> | Hne].
      + rewrite (bool_decide_eq_true_2 (n ∈ n :: names)) by constructor.
        rewrite lookup_delete_eq. by case_bool_decide.
      + rewrite lookup_delete_ne by done.
        case_bool_decide as H1; case_bool_decide as H2; try done.
        * exfalso. apply H2. by constructor.
        * exfalso. apply H1. by inversion H2; subst. }
  split; [exact Hlook | ].
  intros Hall. apply map_eq. intros m. rewrite Hlook, lookup_empty.
  case_bool_decide as Hin; [done | ].
  destruct (own prev !! m) eqn:L; [ | done].
  exfalso. apply Hin, Hall. by eexists.
Qed.

Lemma remove_batch_clears_witness :
  let prev := mkRecord 11%positive
                {["slot1" := Node (RText "content1"); "slot2" := Node (RText "content2")]} in
  own (run_queue (remove_batch ["slot1"; "slot2"]) prev 12%positive).1 = ∅.
Proof.
  intros prev.
  apply (remove_batch_clears ["slot1"; "slot2"] prev 12%positive).
  intros m [v Hm]. subst prev. cbn [own] in Hm.
  destruct (decide (m = "slot1")) as [-> | H1]; [constructor | ].
  destruct (decide (m = "slot2")) as [-> | H2]; [constructor; constructor | ].
  rewrite lookup_insert_ne in Hm by done.
  rewrite lookup_singleton_ne in Hm by done. discriminate.
Defined.

Lemma run_queue_cons (u : Updater) (q : list Updater) (state : SlotRecord) (next : ref) :
  run_queue (u :: q) state next = run_queue q (u state next).1 (u state next).2.
Proof. simpl. by destruct (u state next). Qed.

(** A run of [setSlotValue] calls none of which is for [n] leaves the entry
    of [n] as it was. *)
Lemma set_batch_other (writes : list (string * SlotChildren)) (n : string)
    (prev : SlotRecord) (next : ref) :
  (∀ w, w ∈ writes → w.1 ≠ n) →
  own (run_queue (set_batch writes) prev next).1 !! n = own prev !! n.
Proof.
  revert prev next. induction writes as [ | [k v] writes IH]; intros prev next Hall.
  - done.
  - change (set_batch ((k, v) :: writes))
      with (setSlotValue_updater k v :: set_batch writes).
    rewrite run_queue_cons. simpl.
    rewrite IH by (intros w Hw; apply Hall; by right).
    apply setSlotValue_updater_other. apply (Hall (k, v)). by left.
Qed.

(** X7.  Last write wins in a run of [setSlotValue] calls: when the latest
    call for [n] gave a value that is [===] to itself, [n] afterwards reads a
    value [===] to it, whatever was written to [n] before and to other names
    after; and a name for which no call was made keeps its entry. *)
Theorem set_batch_last_write_wins (before after : list (string * SlotChildren))
    (n : string) (v : SlotChildren) (prev : SlotRecord) (next : ref) :
  strict_eq v v = true →
  (∀ w, w ∈ after → w.1 ≠ n) →
  strict_eq
    (prop_get (run_queue (set_batch (before ++ (n, v) :: after)%list) prev next).1 n) v
  = true
  ∧ ∀ m, (∀ w, w ∈ (before ++ (n, v) :: after)%list → w.1 ≠ m) →
         own (run_queue (set_batch (before ++ (n, v) :: after)%list) prev next).1 !! m
         = own prev !! m.
Proof.
  intros Hrefl Hafter. split.
  - replace (set_batch (before ++ (n, v) :: after))
      with (set_batch before ++ setSlotValue_updater n v :: set_batch after)%list
      by (unfold set_batch; by rewrite map_app).
    rewrite run_queue_app, run_queue_cons.
    match goal with |- context [run_queue (set_batch after) ?r ?x] =>
      rewrite (prop_get_other r (run_queue (set_batch after) r x).1 n)
        by (by apply set_batch_other)
    end.
    by apply setSlotValue_updater_reads.
  - intros m Hall. by apply set_batch_other.
Qed.

Lemma set_batch_last_write_wins_witness :
  let prev := mkRecord 11%positive ∅ in
  strict_eq
    (prop_get
       (run_queue
          (set_batch [("slot1", Node (RText "content1")); ("slot1", Node (RText "updated1"));
                      ("slot2", Node (RText "content2"))]) prev 12%positive).1 "slot1")
    (Node (RText "updated1")) = true.
Proof.
  intros prev.
  apply (set_batch_last_write_wins [("slot1", Node (RText "content1"))]
           [("slot2", Node (RText "content2"))] "slot1" (Node (RText "updated1"))
           prev 12%positive).
  - reflexivity.
  - intros w Hw. apply elem_of_cons in Hw as [-> | Hw]; [discriminate | ].
    by apply elem_of_nil in Hw.
Defined.

(** ** Further properties of the provider and the writer *)

(** X8.  A provider that has just been mounted is between two commits, and
    a write keeps a scope so.  There, a write that changes the record puts a
    new instance in the state cell: [set(n, v)] when [slotValues[n] !== v],
    [remove(n)] when [n] is in the record. *)
Theorem changed_record_is_new_instance :
  (∀ next, committed (SlotProvider_mount next))
  ∧ (∀ s n v, committed s →
       ∃ s1 s2,
         act_setSlotValue n v s = ok s1 ∧ act_removeSlotValue n s = ok s2
         ∧ committed s1 ∧ committed s2
         ∧ (strict_eq (prop_get (slotValues s) n) v = false →
            same_instance (slotValues s1) (slotValues s) = false)
         ∧ (prop_in n (slotValues s) = true →
            same_instance (slotValues s2) (slotValues s) = false)).
Proof.
  split.
  - intros next. split; simpl; [done | lia].
  - intros s n v [Hq Hlt].
    rewrite act_setSlotValue_ok, act_removeSlotValue_ok.
    rewrite !render_dispatch_committed by done.
    eexists _, _. split; [reflexivity | ]. split; [reflexivity | ].
    unfold committed, same_instance. simpl.
    split; [ | split; [ | split]].
    + destruct (setSlotValue_updater_cases n v (slotValues s) (next_id s))
        as [[_ ->] | [_ ->]]; simpl; split; try done; lia.
    + destruct (removeSlotValue_updater_cases n (slotValues s) (next_id s))
        as [[_ ->] | [_ ->]]; simpl; split; try done; lia.
    + intros E. unfold setSlotValue_updater. rewrite E. simpl. apply Pos.eqb_neq. lia.
    + intros Hin. unfold removeSlotValue_updater, in_operator. rewrite Hin. simpl.
      apply Pos.eqb_neq. lia.
Qed.

Lemma changed_record_is_new_instance_witness :
  ∃ s1, act_setSlotValue "test" (Node RNull) emptyScope = ok s1
    ∧ committed s1
    ∧ same_instance (slotValues s1) (slotValues emptyScope) = false.
Proof.
  destruct changed_record_is_new_instance as [Hmount Hstep].
  destruct (Hstep emptyScope "test" (Node RNull) (Hmount 10%positive))
    as (s1 & s2 & Hset & _ & Hc & _ & Hnew & _).
  exists s1. split; [exact Hset | ]. split; [exact Hc | ].
  apply Hnew. vm_compute. reflexivity.
Defined.

(** X9.  A [Slot] rendered again with the name and the children it was
    mounted with dispatches nothing: its hook cells and the scope, the
    record instance included, are what they were after the mount. *)
Theorem Slot_rerender_same_props (s : Scope) (n : string) (content : SlotChildren) :
  ∃ h s1, mount_Slot n content s = ok (h, s1) ∧ update_Slot h n content s1 = ok (h, s1).
Proof.
  rewrite mount_Slot_ok.
  match goal with |- context [SlotProvider_render ?x] =>
    pose proof (render_queue_empty x) as Hq; remember (SlotProvider_render x) as s1 eqn:Hs1
  end.
  clear Hs1. eexists _, s1. split; [reflexivity | ].
  unfold update_Slot, render_Slot. rewrite Slot_in_scope.
  unfold useMemo. cbn [memo_dep memo_value]. rewrite object_is_refl. cbn [fst snd].
  unfold commit, deps_changed. simpl.
  rewrite String.eqb_refl, object_is_refl. simpl.
  destruct s1 as [nx st q]. simpl in Hq. subst q. reflexivity.
Qed.

(** An update whose dependency list changed: the previous cleanup removes
    the old name, then the effect sets the new name. *)
Lemma update_Slot_effect_runs (h : SlotHooks) (name : string) (children : SlotChildren)
    (s : Scope) :
  rendered_in_scope h →
  deps_changed (effect h)
    (mkEffect name (useMemo (Some h) children (next_id s)).1.2
       (MFunction setSlotValue) (MFunction removeSlotValue)) = true →
  update_Slot h name children s
  = ok (mkHooks (useMemo (Some h) children (next_id s)).1.1
          (useMemo (Some h) children (next_id s)).1.2
          (mkEffect name (useMemo (Some h) children (next_id s)).1.2
             (MFunction setSlotValue) (MFunction removeSlotValue)),
        SlotProvider_render
          (dispatch [setSlotValue_updater name (useMemo (Some h) children (next_id s)).1.2]
             (dispatch [removeSlotValue_updater (eff_name (effect h))]
                (with_next s (useMemo (Some h) children (next_id s)).2)))).
Proof.
  intros [_ Hrem] Hdeps.
  unfold update_Slot, render_Slot. rewrite Slot_in_scope.
  destruct (useMemo (Some h) children (next_id s)) as [[dep memo] next]. simpl in *.
  rewrite Hdeps. unfold effect_cleanup. rewrite Hrem. reflexivity.
Qed.

(** Memoized contents of children that are not the same reference are not
    the same reference either: two nodes are the children themselves, and
    wrappers of two functions are two functions. *)
Lemma memoize_changed (c c' : SlotChildren) (a b : ref) :
  object_is c c' = false →
  object_is (memoize c a).1 (memoize c' b).1 = false.
Proof.
  intros Hne. destruct c as [x | f], c' as [y | g]; simpl in *; try done.
  by rewrite Hne.
Qed.

(** X10.  A mounted [Slot] rendered again under the same name with children
    of another reference (not undefined): the name then holds the content
    memoized from the new children, exactly. *)
Theorem Slot_content_change_replaces_entry (s : Scope) (n : string)
    (content content' : SlotChildren) :
  committed s →
  object_is content content' = false →
  content' ≠ Node RUndefined →
  ∃ h s1 h' s2,
    mount_Slot n content s = ok (h, s1)
    ∧ update_Slot h n content' s1 = ok (h', s2)
    ∧ memo_value h' = (memoize content' (next_id s1)).1
    ∧ own (slotValues s2) !! n = Some (memo_value h').
Proof.
  intros [Hq Hlt] Hne Hdef.
  rewrite mount_Slot_ok.
  rewrite render_dispatch_committed by done. simpl.
  set (memo := (memoize content (next_id s)).1).
  set (nx1 := (memoize content (next_id s)).2).
  set (h := mkHooks content memo
              (mkEffect n memo (MFunction setSlotValue) (MFunction removeSlotValue))).
  set (s1 := mkScope (setSlotValue_updater n memo (slotValues s) nx1).2
               (setSlotValue_updater n memo (slotValues s) nx1).1 []).
  assert (useMemo (Some h) content' (next_id s1)
          = ((content', (memoize content' (next_id s1)).1),
             (memoize content' (next_id s1)).2)) as Hmemo.
  { unfold useMemo. simpl. rewrite Hne.
    match goal with |- context [memoize content' ?x] => by destruct (memoize content' x) end. }
  assert (deps_changed (effect h)
            (mkEffect n (useMemo (Some h) content' (next_id s1)).1.2
               (MFunction setSlotValue) (MFunction removeSlotValue)) = true) as Hdeps.
  { rewrite Hmemo. unfold deps_changed. simpl. rewrite String.eqb_refl. simpl.
    apply negb_true_iff. by apply memoize_changed. }
  exists h, s1. eexists _, _. split; [reflexivity | ].
  rewrite (update_Slot_effect_runs h n content' s1 (conj eq_refl eq_refl) Hdeps).
  rewrite Hmemo. simpl. split; [reflexivity | ]. split; [reflexivity | ].
  rewrite render_dispatch_one. apply setSlotValue_updater_fresh.
  apply guard_fails_on_free_name; [ | done].
  rewrite render_dispatch_one. apply removeSlotValue_updater_absent.
Qed.

Lemma Slot_content_change_replaces_entry_witness :
  ∃ h s1 h' s2,
    mount_Slot "main" (Node (RText "Initial Main Content")) emptyScope = ok (h, s1)
    ∧ update_Slot h "main" (Node (RText "Updated Main Content")) s1 = ok (h', s2)
    ∧ own (slotValues s2) !! "main" = Some (Node (RText "Updated Main Content")).
Proof.
  destruct (Slot_content_change_replaces_entry emptyScope "main"
              (Node (RText "Initial Main Content")) (Node (RText "Updated Main Content")))
    as (h & s1 & h' & s2 & Hmount & Hupdate & Hmemo & Hentry).
  - split; [reflexivity | vm_compute; reflexivity].
  - vm_compute. reflexivity.
  - discriminate.
  - exists h, s1, h', s2. split; [exact Hmount | ]. split; [exact Hupdate | ].
    rewrite Hentry, Hmemo. reflexivity.
Defined.

(** X11.  With writers mounted on two distinct names, unmounting the first
    removes its name and leaves the entry of the second exactly as it was;
    that entry exists when the second writer's content is not undefined. *)
Theorem unmount_keeps_other_names (s : Scope) (n m : string) (ca cb : SlotChildren) :
  n ≠ m →
  ∃ ha hb s1 s2 s3,
    mount_Slot n ca s = ok (ha, s1)
    ∧ mount_Slot m cb s1 = ok (hb, s2)
    ∧ unmount_Slot ha s2 = ok s3
    ∧ prop_in n (slotValues s3) = false
    ∧ own (slotValues s3) !! m = own (slotValues s2) !! m
    ∧ (cb ≠ Node RUndefined → prop_in m (slotValues s2) = true).
Proof.
  intros Hne.
  rewrite mount_Slot_ok. eexists _, _, _, _, _. split; [reflexivity | ].
  rewrite mount_Slot_ok. split; [reflexivity | ].
  rewrite unmount_Slot_ok by (split; reflexivity). split; [reflexivity | ].
  cbn [effect eff_name]. rewrite render_dispatch_one. split; [ | split].
  - apply prop_in_false, removeSlotValue_updater_absent.
  - rewrite removeSlotValue_updater_other by done.
    match goal with |- context [SlotProvider_render (SlotProvider_render ?x)] =>
      by rewrite (render_committed (SlotProvider_render x)) by apply render_queue_empty
    end.
  - intros Hdef. apply prop_in_true. rewrite render_dispatch_one.
    apply setSlotValue_updater_present.
    + intros E. apply Hdef. by apply memoize_undefined in E.
    + apply strict_eq_inherited_memoize.
Qed.

Lemma unmount_keeps_other_names_witness :
  ∃ ha hb s1 s2 s3,
    mount_Slot "remove" (Node (RText "content2")) emptyScope = ok (ha, s1)
    ∧ mount_Slot "keep1" (Node (RText "content1")) s1 = ok (hb, s2)
    ∧ unmount_Slot ha s2 = ok s3
    ∧ prop_in "remove" (slotValues s3) = false
    ∧ own (slotValues s3) !! "keep1" = own (slotValues s2) !! "keep1"
    ∧ prop_in "keep1" (slotValues s2) = true.
Proof.
  destruct (unmount_keeps_other_names emptyScope "remove" "keep1"
              (Node (RText "content2")) (Node (RText "content1")))
    as (ha & hb & s1 & s2 & s3 & H1 & H2 & H3 & H4 & H5 & H6); [discriminate | ].
  exists ha, hb, s1, s2, s3. repeat (split; [assumption | ]). apply H6. discriminate.
Defined.

(** X12.  A [Slot] mounted in a scope with nothing queued and rendered
    again under another name, one without entry, with the children it was
    mounted with (not undefined): the memoized content is kept, the old name
    has no entry afterwards, and the new name holds the memoized content. *)
Theorem Slot_rename_moves_entry (s : Scope) (n n' : string) (content : SlotChildren) :
  queue s = [] →
  n ≠ n' →
  content ≠ Node RUndefined →
  own (slotValues s) !! n' = None →
  ∃ h s1 h' s2,
    mount_Slot n content s = ok (h, s1)
    ∧ update_Slot h n' content s1 = ok (h', s2)
    ∧ memo_value h' = memo_value h
    ∧ prop_in n (slotValues s2) = false
    ∧ own (slotValues s2) !! n' = Some (memo_value h).
Proof.
  intros Hq Hne Hdef Hfree. rewrite mount_Slot_ok.
  set (h := mkHooks content (memoize content (next_id s)).1
              (mkEffect n (memoize content (next_id s)).1
                 (MFunction setSlotValue) (MFunction removeSlotValue))).
  match goal with |- context [SlotProvider_render ?x] => set (s1 := SlotProvider_render x) end.
  destruct (update_Slot_rename_registers h n' content s1)
    as (h' & s2 & Hupdate & Hmemo & Hold & Hnew).
  - split; reflexivity.
  - apply object_is_refl.
  - exact Hne.
  - cbn [h memo_value].
    destruct (strict_eq (Node RUndefined) (memoize content (next_id s)).1) eqn:E; [ | done].
    apply strict_eq_undefined, memoize_undefined in E. done.
  - apply strict_eq_inherited_memoize.
  - subst s1. rewrite (render_committed (SlotProvider_render _)) by apply render_queue_empty.
    rewrite render_dispatch_committed by done. cbn [slotValues].
    by rewrite setSlotValue_updater_other.
  - exists h, s1, h', s2. split; [reflexivity | ]. split; [exact Hupdate | ].
    split; [exact Hmemo | ]. split; [by apply prop_in_false | exact Hnew].
Qed.

Lemma Slot_rename_moves_entry_witness :
  ∃ h s1 h' s2,
    mount_Slot "a" (Node (RNumber nan)) emptyScope = ok (h, s1)
    ∧ update_Slot h "toString" (Node (RNumber nan)) s1 = ok (h', s2)
    ∧ prop_in "a" (slotValues s2) = false
    ∧ own (slotValues s2) !! "toString" = Some (Node (RNumber nan)).
Proof.
  destruct (Slot_rename_moves_entry emptyScope "a" "toString" (Node (RNumber nan)))
    as (h & s1 & h' & s2 & Hmount & Hupdate & _ & Hold & Hnew);
    [reflexivity | discriminate | discriminate | reflexivity | ].
  exists h, s1, h', s2. split; [exact Hmount | ]. split; [exact Hupdate | ].
  split; [exact Hold | ]. rewrite Hnew.
  assert (Some (h, s1) = Some (mkHooks (Node (RNumber nan)) (Node (RNumber nan))
            (mkEffect "a" (Node (RNumber nan)) (MFunction setSlotValue)
               (MFunction removeSlotValue)), s1)) as E.
  { rewrite mount_Slot_ok in Hmount. by injection Hmount as <- _. }
  by injection E as ->.
Defined.

(** X13.  Mounting a [Slot] on a name without entry, with content other
    than undefined, registers the memoized content: a node is registered as
    it is, and a render prop as another function, not [===] to the render
    prop, that returns for every default what the render prop returns. *)
Theorem mount_registers_memoized_content (s : Scope) (n : string) (content : SlotChildren) :
  queue s = [] →
  own (slotValues s) !! n = None →
  content ≠ Node RUndefined →
  ∃ h s1,
    mount_Slot n content s = ok (h, s1)
    ∧ own (slotValues s1) !! n = Some (memo_value h)
    ∧ match content with
      | Node c => memo_value h = Node c
      | RenderProp f =>
          ∃ g, memo_value h = RenderProp g
               ∧ strict_eq (RenderProp g) (RenderProp f) = false
               ∧ ∀ defaultChildren, fn_call g defaultChildren = fn_call f defaultChildren
      end.
Proof.
  intros Hq Habs Hdef.
  rewrite mount_Slot_ok. eexists _, _. split; [reflexivity | ]. cbn [memo_value]. split.
  - rewrite render_dispatch_committed by done. cbn [slotValues].
    apply setSlotValue_updater_fresh. by apply guard_fails_on_free_name.
  - destruct content as [c | f]; simpl; [done | ].
    eexists. split; [reflexivity | ]. split; [ | reflexivity]. simpl.
    destruct (FunctionId_eqb (Wrapper (fn_id f) (next_id s)) (fn_id f)) eqn:E; [ | done].
    apply FunctionId_eqb_eq in E. by apply Wrapper_ne in E.
Qed.

Lemma mount_registers_memoized_content_witness :
  ∃ h s1 g,
    mount_Slot "test" (RenderProp transformed) emptyScope = ok (h, s1)
    ∧ own (slotValues s1) !! "test" = Some (RenderProp g)
    ∧ strict_eq (RenderProp g) (RenderProp transformed) = false
    ∧ fn_call g defaultContent = fn_call transformed defaultContent.
Proof.
  destruct (mount_registers_memoized_content emptyScope "test" (RenderProp transformed))
    as (h & s1 & Hmount & Hentry & g & Hmemo & Hnew & Hcall).
  - reflexivity.
  - vm_compute. reflexivity.
  - discriminate.
  - exists h, s1, g. split; [exact Hmount | ]. split; [by rewrite Hentry, Hmemo | ].
    split; [exact Hnew | apply Hcall].
Defined.

(** An update whose dependency list did not change keeps the previous
    effect, under the same name, and dispatches nothing. *)
Lemma update_Slot_effect_kept (h : SlotHooks) (name : string) (children : SlotChildren)
    (s : Scope) :
  deps_changed (effect h)
    (mkEffect name (useMemo (Some h) children (next_id s)).1.2
       (MFunction setSlotValue) (MFunction removeSlotValue)) = false →
  eff_name (effect h) = name
  ∧ update_Slot h name children s
    = ok (mkHooks (useMemo (Some h) children (next_id s)).1.1
            (useMemo (Some h) children (next_id s)).1.2 (effect h),
          SlotProvider_render (with_next s (useMemo (Some h) children (next_id s)).2)).
Proof.
  intros Hdeps. split.
  - unfold deps_changed in Hdeps. simpl in Hdeps.
    apply orb_false_iff in Hdeps as [Hname _].
    apply negb_false_iff in Hname. by apply String.eqb_eq.
  - unfold update_Slot, render_Slot. rewrite Slot_in_scope.
    destruct (useMemo (Some h) children (next_id s)) as [[dep memo] next]. simpl in *.
    by rewrite Hdeps.
Qed.

(** X14.  No entry is left behind: a [Slot] rendered inside a scope, then
    rendered again with any name and any children, then unmounted, leaves
    neither its last name nor its previous name in the record. *)
Theorem updated_writer_leaves_no_entry (h : SlotHooks) (name : string)
    (children : SlotChildren) (s : Scope) :
  rendered_in_scope h →
  ∃ h' s1 s2,
    update_Slot h name children s = ok (h', s1)
    ∧ unmount_Slot h' s1 = ok s2
    ∧ prop_in name (slotValues s2) = false
    ∧ prop_in (eff_name (effect h)) (slotValues s2) = false.
Proof.
  intros Hin.
  destruct (deps_changed (effect h)
              (mkEffect name (useMemo (Some h) children (next_id s)).1.2
                 (MFunction setSlotValue) (MFunction removeSlotValue))) eqn:Hdeps.
  - rewrite (update_Slot_effect_runs h name children s Hin Hdeps).
    eexists _, _, _. split; [reflexivity | ].
    rewrite unmount_Slot_ok by (split; reflexivity). split; [reflexivity | ].
    simpl. rewrite render_dispatch_one. split.
    + apply prop_in_false, removeSlotValue_updater_absent.
    + apply prop_in_false.
      destruct (decide (name = eff_name (effect h))) as [<- | Hne].
      * apply removeSlotValue_updater_absent.
      * rewrite removeSlotValue_updater_other by done.
        match goal with |- context [SlotProvider_render (SlotProvider_render ?x)] =>
          rewrite (render_committed (SlotProvider_render x)) by apply render_queue_empty
        end.
        rewrite render_dispatch_one.
        rewrite setSlotValue_updater_other by done.
        rewrite render_dispatch_one. apply removeSlotValue_updater_absent.
  - destruct (update_Slot_effect_kept h name children s Hdeps) as [Hname ->].
    destruct Hin as [Hset Hrem].
    eexists _, _, _. split; [reflexivity | ].
    rewrite unmount_Slot_ok by (split; simpl; assumption). split; [reflexivity | ].
    simpl. rewrite Hname, render_dispatch_one.
    split; apply prop_in_false, removeSlotValue_updater_absent.
Qed.

Lemma updated_writer_leaves_no_entry_witness :
  let content := Node (RText "content") in
  let h := mkHooks content content
             (mkEffect "a" content (MFunction setSlotValue) (MFunction removeSlotValue)) in
  ∃ h' s1 s2,
    update_Slot h "b" (RenderProp transformed) emptyScope = ok (h', s1)
    ∧ unmount_Slot h' s1 = ok s2
    ∧ prop_in "b" (slotValues s2) = false
    ∧ prop_in "a" (slotValues s2) = false.
Proof.
  intros content h.
  apply (updated_writer_leaves_no_entry h "b" (RenderProp transformed) emptyScope).
  split; reflexivity.
Defined.

(** X15.  A write that changes nothing returns the record it was given:
    [set(n, v)] when [prev[n] === v], and [remove(n)] when [n] has no entry
    and is no member of [Object.prototype].  And a record of another instance
    has other properties: after [set(n, v)] for a value that is [===] to
    itself, after [remove(n)] for a name that is no member of
    [Object.prototype]. *)
Theorem noop_writes_keep_the_instance (prev : SlotRecord) (n : string) (v : SlotChildren)
    (next : ref) :
  (strict_eq (prop_get prev n) v = true →
   setSlotValue_updater n v prev next = (prev, next))
  ∧ (inherited n = false → prop_in n prev = false →
     removeSlotValue_updater n prev next = (prev, next))
  ∧ (strict_eq v v = true →
     same_instance (setSlotValue_updater n v prev next).1 prev = false →
     own (setSlotValue_updater n v prev next).1 ≠ own prev)
  ∧ (inherited n = false →
     same_instance (removeSlotValue_updater n prev next).1 prev = false →
     own (removeSlotValue_updater n prev next).1 ≠ own prev).
Proof.
  split; [ | split; [ | split]].
  - intros E. unfold setSlotValue_updater. by rewrite E.
  - intros Hinh E. unfold removeSlotValue_updater, in_operator. by rewrite E, Hinh.
  - intros Hrefl.
    destruct (setSlotValue_updater_cases n v prev next) as [[_ ->] | [E ->]]; simpl.
    + unfold same_instance. rewrite Pos.eqb_refl. discriminate.
    + intros _ Heq. apply (f_equal (λ m, m !! n)) in Heq.
      rewrite lookup_insert_eq in Heq. symmetry in Heq.
      rewrite (prop_get_present _ _ _ Heq) in E. congruence.
  - intros Hinh.
    destruct (removeSlotValue_updater_cases n prev next) as [[_ ->] | [L ->]]; simpl.
    + unfold same_instance. rewrite Pos.eqb_refl. discriminate.
    + intros _ Heq. apply (f_equal (λ m, m !! n)) in Heq.
      rewrite lookup_delete_eq in Heq. symmetry in Heq. apply prop_in_false in Heq.
      unfold in_operator in L. rewrite Heq, Hinh in L. discriminate.
Qed.

Lemma noop_writes_keep_the_instance_witness :
  let content := Node (RElement 4%positive "div" [RText "Test Content"]) in
  let prev := mkRecord 11%positive {["test" := content]} in
  setSlotValue_updater "test" content prev 12%positive = (prev, 12%positive)
  ∧ removeSlotValue_updater "nonexistent" prev 12%positive = (prev, 12%positive)
  ∧ own (setSlotValue_updater "test" (Node RNull) prev 12%positive).1 ≠ own prev
  ∧ own (removeSlotValue_updater "test" prev 12%positive).1 ≠ own prev.
Proof.
  intros content prev.
  destruct (noop_writes_keep_the_instance prev "test" content 12%positive)
    as (Hset & _ & _ & Hremoved).
  destruct (noop_writes_keep_the_instance prev "nonexistent" content 12%positive)
    as (_ & Hrem & _ & _).
  destruct (noop_writes_keep_the_instance prev "test" (Node RNull) 12%positive)
    as (_ & _ & Hchanged & _).
  split; [apply Hset; vm_compute; reflexivity | ].
  split; [apply Hrem; vm_compute; reflexivity | ].
  split; [apply Hchanged; vm_compute; reflexivity | ].
  apply Hremoved; vm_compute; reflexivity.
Defined.
